(** * Ownership wrappers over a raw pointer: [UniquePointer] and [smartPointer]

    A shallow embedding of the two class templates of the repository
    (uniquePointer.cpp and the starter smartPointer program) together with
    the properties of their ownership protocol.

    A wrapper object is identified by its address ([this]); its single data
    member [ptr] is a raw pointer [T*], modelled as [option loc] with
    [None] for [nullptr].  The members are written in a small state and
    failure monad over a machine that holds the live wrapper objects and a
    log of the effects performed so far, in program order. *)

From stdpp Require Import gmap strings list.

Open Scope string_scope.
Open Scope list_scope.

(** ** Machine model *)

(** Address of a wrapper object (what [this] and [&other] denote). *)
Definition addr := nat.

(** Address of a heap resource of type [T]. *)
Definition loc := nat.

(** The raw pointer [T*]; [None] is [nullptr]. *)
Abbreviation ptr := (option loc).

(** Effects, logged in program order:
    - [Cout line]: a line sent to [cout] (the text, without its final
      newline);
    - [Destroy l]: a delete-expression applied to the non-null pointer [l],
      that is one run of [~T()] on the resource at [l] followed by its
      deallocation;
    - [Store this p]: the member [ptr] of the wrapper at [this] is
      initialised or assigned with [p]. *)
Inductive event :=
| Cout (line : string)
| Destroy (l : loc)
| Store (this : addr) (p : ptr).

#[global] Instance event_eq_dec : EqDecision event.
Proof. solve_decision. Defined.

(** [objs] maps the address of every live wrapper object to the value of
    its member [ptr]. *)
Record machine := Machine {
  objs : gmap addr ptr;
  log : list event
}.

(** Program start: no wrapper object is alive, nothing has happened. *)
Definition initial : machine := Machine ∅ [].

(** Members run in [M]: [None] stands for a program to which the model
    gives no behaviour, because it uses a wrapper object outside its
    lifetime (a member called on an object that is not alive, or an object
    constructed where one is alive already). *)
Definition M (A : Type) : Type := machine -> option (A * machine).

Definition ret {A} (a : A) : M A := fun s => Some (a, s).

Definition bind {A B} (c : M A) (k : A -> M B) : M B :=
  fun s => match c s with
           | Some (a, s') => k a s'
           | None => None
           end.

Notation "x <- c ;; k" := (bind c (fun x => k))
  (at level 100, c at next level, right associativity).
Notation "c ;; k" := (bind c (fun _ => k))
  (at level 100, right associativity).

(** [cout << line << '\n'] *)
Definition cout (line : string) : M unit :=
  fun s => Some (tt, Machine (objs s) (log s ++ [Cout line])).

(** [delete p]: nothing happens on [nullptr]; otherwise the resource is
    destroyed and deallocated. *)
Definition delete_ (p : ptr) : M unit :=
  fun s => match p with
           | None => Some (tt, s)
           | Some l => Some (tt, Machine (objs s) (log s ++ [Destroy l]))
           end.

(** Reading [ptr] of the object at [this]. *)
Definition get_ptr (this : addr) : M ptr :=
  fun s => match objs s !! this with
           | Some p => Some (p, s)
           | None => None
           end.

(** [ptr = p;] in the object at [this]. *)
Definition set_ptr (this : addr) (p : ptr) : M unit :=
  fun s => match objs s !! this with
           | Some _ => Some (tt, Machine (<[this := p]> (objs s))
                                         (log s ++ [Store this p]))
           | None => None
           end.

(** The member initialiser [: ptr(p)] of a constructor: the lifetime of the
    object at [this] begins. *)
Definition init_ptr (this : addr) (p : ptr) : M unit :=
  fun s => match objs s !! this with
           | Some _ => None
           | None => Some (tt, Machine (<[this := p]> (objs s))
                                       (log s ++ [Store this p]))
           end.

(** A reference ([*this], [other]) is bound to a live object. *)
Definition alive (this : addr) : M unit :=
  fun s => match objs s !! this with
           | Some _ => Some (tt, s)
           | None => None
           end.

(** The end of a destructor: the lifetime of the object at [this] ends. *)
Definition end_lifetime (this : addr) : M unit :=
  fun s => match objs s !! this with
           | Some _ => Some (tt, Machine (delete this (objs s)) (log s))
           | None => None
           end.

(** The state a computation ends in. *)
Definition exec {A} (c : M A) (s : machine) : option machine :=
  match c s with
  | Some (_, s') => Some s'
  | None => None
  end.

(** ** Counting destructions *)

(** The resources destroyed by a log, in order. *)
Fixpoint deletions (t : list event) : list loc :=
  match t with
  | [] => []
  | Destroy l :: t' => l :: deletions t'
  | _ :: t' => deletions t'
  end.

(** How many times the resource at [l] is destroyed by a log: the
    destruction counter of the resource. *)
Definition destroyed (l : loc) (t : list event) : nat :=
  count_occ Nat.eq_dec (deletions t) l.

(** What [delete p] adds to the log. *)
Definition delete_events (p : ptr) : list event :=
  match p with
  | Some l => [Destroy l]
  | None => []
  end.

(** Outcome of evaluating an expression that may have undefined
    behaviour. *)
Inductive outcome (A : Type) :=
| Defined_ (a : A)
| Undefined.
Arguments Defined_ {A} a.
Arguments Undefined {A}.

(** A reference [T&]: the lvalue designating the resource at [l]. *)
Inductive ref := Ref (l : loc).

(** The built-in unary [*] on a raw pointer. *)
Definition builtin_deref (p : ptr) : outcome ref :=
  match p with
  | Some l => Defined_ (Ref l)
  | None => Undefined
  end.

(** ** [template <typename T> class UniquePointer] *)

Module UniquePointer.

(** [explicit UniquePointer(T* p = nullptr) : ptr(p)] *)
Definition ctor (this : addr) (p : ptr) : M unit :=
  init_ptr this p ;;
  cout "UniquePointer instance created, Contructor is called!!".

(** The default argument of the constructor. *)
Definition ctor_default (this : addr) : M unit := ctor this None.

(** [~UniquePointer()] *)
Definition dtor (this : addr) : M unit :=
  cout "UniquePointer deleted, Destructor is called!!" ;;
  p <- get_ptr this ;;
  delete_ p ;;
  end_lifetime this.

(** [UniquePointer(UniquePointer&& other) noexcept : ptr(other.ptr)] *)
Definition move_ctor (this other : addr) : M unit :=
  q <- get_ptr other ;;
  init_ptr this q ;;
  cout "Move constructor called" ;;
  set_ptr other None.

(** [UniquePointer& operator=(UniquePointer&& other) noexcept];
    the result [*this] is the address [this]. *)
Definition move_assign (this other : addr) : M addr :=
  alive this ;;
  alive other ;;
  (if decide (this ≠ other) then
     p <- get_ptr this ;;
     delete_ p ;;
     q <- get_ptr other ;;
     set_ptr this q ;;
     set_ptr other None
   else ret tt) ;;
  cout "Move assignment operator called" ;;
  ret this.

(** [T& operator*() const] *)
Definition operator_star (this : addr) : M (outcome ref) :=
  cout "overloading dereference operator" ;;
  p <- get_ptr this ;;
  ret (builtin_deref p).

(** [T* operator->() const] *)
Definition operator_arrow (this : addr) : M ptr :=
  cout "overloading arrow oprator" ;;
  p <- get_ptr this ;;
  ret p.

(** [T* release()] *)
Definition release (this : addr) : M ptr :=
  cout "utility function to release ownership" ;;
  oldPtr <- get_ptr this ;;
  set_ptr this None ;;
  ret oldPtr.

(** [void reset(T* p = nullptr)] *)
Definition reset (this : addr) (p : ptr) : M unit :=
  cout "utility function to reset the pointer with a new one" ;;
  q <- get_ptr this ;;
  delete_ q ;;
  set_ptr this p.

(** The default argument of [reset]. *)
Definition reset_default (this : addr) : M unit := reset this None.

End UniquePointer.

(** ** [template<typename T> class smartPointer] *)

Module smartPointer.

(** [explicit smartPointer(T* p=nullptr):ptr(p)] *)
Definition ctor (this : addr) (p : ptr) : M unit :=
  init_ptr this p ;;
  cout "smartPointer instance created, Contructor is called!!".

(** [~smartPointer()] *)
Definition dtor (this : addr) : M unit :=
  cout "smartPointer deleted, Destructor is called!!" ;;
  p <- get_ptr this ;;
  delete_ p ;;
  end_lifetime this.

(** [T& operator*() const] *)
Definition operator_star (this : addr) : M (outcome ref) :=
  cout "overloading dereference operator" ;;
  p <- get_ptr this ;;
  ret (builtin_deref p).

(** [T* operator->() const] *)
Definition operator_arrow (this : addr) : M ptr :=
  cout "overloading arrow oprator" ;;
  p <- get_ptr this ;;
  ret p.

(** The class declares no copy constructor, so the language declares
    [smartPointer(const smartPointer& other)] implicitly: it copies the
    member [ptr] and prints nothing. *)
Definition copy_ctor (this other : addr) : M unit :=
  q <- get_ptr other ;;
  init_ptr this q.

(** The implicitly declared [smartPointer& operator=(const smartPointer&)]:
    it assigns the member [ptr] and destroys nothing. *)
Definition copy_assign (this other : addr) : M addr :=
  alive this ;;
  q <- get_ptr other ;;
  set_ptr this q ;;
  ret this.

End smartPointer.

(** ** Member access through a wrapper *)

(** The built-in [p->m] on a raw pointer, for a member [m] of [T]: it
    designates the member of the resource at [p]. *)
Definition builtin_arrow (p : ptr) : outcome ref := builtin_deref p.

(** The expression [x->m] on a wrapper [x] is [(x.operator->())->m]. *)
Definition member_access (this : addr) : M (outcome ref) :=
  p <- UniquePointer.operator_arrow this ;;
  ret (builtin_arrow p).

(** ** The demonstration programs *)

(** A resource class that reports its construction, its destruction and a
    call of its one method on [cout], as the class [MyClass] of each program
    does. *)
Record resource_class := ResourceClass {
  constructor_line : string;
  destructor_line : string;
  method_line : string
}.

(** [new T()], the allocator placing the object at [l]. *)
Definition new_ (T : resource_class) (l : loc) : M ptr :=
  cout (constructor_line T) ;;
  ret (Some l).

(** A call of the method of [T] on an lvalue; a program that calls it on
    an undefined lvalue has no behaviour. *)
Definition call_method (T : resource_class) (o : outcome ref) : M unit :=
  match o with
  | Defined_ _ => cout (method_line T)
  | Undefined => fun _ => None
  end.

(** What a log shows on the console when the resources are of class [T]:
    each destruction prints the line of [~T()]. *)
Definition console (T : resource_class) (t : list event) : list string :=
  flat_map (fun e => match e with
                     | Cout line => [line]
                     | Destroy _ => [destructor_line T]
                     | Store _ _ => []
                     end) t.

(** The program of uniquePointer.cpp. *)
Module unique_program.
Import UniquePointer.

Definition MyClass : resource_class :=
  ResourceClass "MyClass constructor called!"
                "MyClass destructor called!"
                "Hello from MyClass!".

(** The two locals of [main]. *)
Definition unique_ptr : addr := 0.
Definition unique_ptr2 : addr := 1.

(** [int main()], the allocator placing the [MyClass] object at [R]; the
    locals are destroyed in reverse order of construction at [return]. *)
Definition main (R : loc) : M nat :=
  p <- new_ MyClass R ;;
  ctor unique_ptr p ;;
  (o <- member_access unique_ptr ;; call_method MyClass o) ;;
  move_ctor unique_ptr2 unique_ptr ;;
  r <- release unique_ptr ;;
  (match r with
   | None => cout "Ownership transferred"
   | Some _ => ret tt
   end) ;;
  (o <- member_access unique_ptr2 ;; call_method MyClass o) ;;
  dtor unique_ptr2 ;;
  dtor unique_ptr ;;
  ret 0.

End unique_program.

(** The starter program with [smartPointer]. *)
Module starter_program.
Import smartPointer.

Definition MyClass : resource_class :=
  ResourceClass "MyClass Constructor is called"
                "MyClass is going out of scope!!!! Destructor is called"
                "MyClass instance function!".

Definition sp1 : addr := 0.

(** [int main()], the allocator placing the [MyClass] object at [R]. *)
Definition main (R : loc) : M nat :=
  p <- new_ MyClass R ;;
  ctor sp1 p ;;
  (q <- operator_arrow sp1 ;; call_method MyClass (builtin_arrow q)) ;;
  (o <- operator_star sp1 ;; call_method MyClass o) ;;
  dtor sp1 ;;
  ret 0.

End starter_program.

(** ** Sequences of operations on [UniquePointer] objects *)

Inductive op :=
| Construct (this : addr) (p : ptr)
| MoveConstruct (this other : addr)
| MoveAssign (this other : addr)
| Release (this : addr)
| ResetTo (this : addr) (p : ptr)
| Destruct (this : addr).

Definition step (o : op) : M unit :=
  match o with
  | Construct this p => UniquePointer.ctor this p
  | MoveConstruct this other => UniquePointer.move_ctor this other
  | MoveAssign this other => UniquePointer.move_assign this other ;; ret tt
  | Release this => UniquePointer.release this ;; ret tt
  | ResetTo this p => UniquePointer.reset this p
  | Destruct this => UniquePointer.dtor this
  end.

Fixpoint run (os : list op) : M unit :=
  match os with
  | [] => ret tt
  | o :: os' => step o ;; run os'
  end.

(** Exclusive ownership: no resource is the handle of two live objects. *)
Definition exclusive (s : machine) : Prop :=
  forall (i j : addr) (l : loc),
    objs s !! i = Some (Some l) -> objs s !! j = Some (Some l) -> i = j.

(** No live object other than [this] has [p] as its handle ([nullptr] is
    claimed by nobody). *)
Definition unclaimed (this : addr) (p : ptr) (s : machine) : Prop :=
  match p with
  | None => True
  | Some l => map_Forall (fun i q => i = this \/ q <> Some l) (objs s)
  end.

#[global] Instance unclaimed_dec this p s : Decision (unclaimed this p s).
Proof. destruct p; simpl; apply _. Defined.

(** The raw pointer handed to a constructor or to [reset] is not the
    handle of another live object. *)
Definition admissible (o : op) (s : machine) : bool :=
  match o with
  | Construct this p => bool_decide (unclaimed this p s)
  | ResetTo this p => bool_decide (unclaimed this p s)
  | _ => true
  end.

(** The states a program reaches from its start by operations on
    [UniquePointer] objects. *)
Inductive reachable (ok : op -> machine -> bool) : machine -> Prop :=
| reach_initial : reachable ok initial
| reach_step s o s' :
    reachable ok s -> ok o s = true -> exec (step o) s = Some s' ->
    reachable ok s'.

(** Every operation is allowed. *)
Definition any_op (o : op) (s : machine) : bool := true.

(** The wrapper objects an operation names. *)
Definition named (o : op) : list addr :=
  match o with
  | Construct this _ => [this]
  | MoveConstruct this other => [this; other]
  | MoveAssign this other => [this; other]
  | Release this => [this]
  | ResetTo this _ => [this]
  | Destruct this => [this]
  end.


(** A raw pointer a wrapper may adopt: [nullptr], or the address of a
    resource that is the handle of no live object and has not been
    destroyed. *)
Definition adoptable (p : ptr) (s : machine) : Prop :=
  match p with
  | None => True
  | Some l => map_Forall (fun (_ : addr) q => q <> Some l) (objs s) /\
              l ∉ deletions (log s)
  end.

#[global] Instance adoptable_dec p s : Decision (adoptable p s).
Proof. destruct p; simpl; apply _. Defined.

(** Constructors and [reset] are only handed adoptable pointers. *)
Definition disciplined (o : op) (s : machine) : bool :=
  match o with
  | Construct _ p => bool_decide (adoptable p s)
  | ResetTo _ p => bool_decide (adoptable p s)
  | _ => true
  end.

(** No resource has been destroyed twice, no live object holds a destroyed
    resource, and no two live objects hold the same resource. *)
Definition memory_safe (s : machine) : Prop :=
  exclusive s /\
  NoDup (deletions (log s)) /\
  forall (i : addr) (l : loc),
    objs s !! i = Some (Some l) -> l ∉ deletions (log s).

(** * Properties *)

(** ** The log and the destruction counter *)

Lemma deletions_app (t1 t2 : list event) :
  deletions (t1 ++ t2) = deletions t1 ++ deletions t2.
Proof.
  induction t1 as [|e t1 IH]; simpl; [reflexivity|].
  destruct e; simpl; rewrite IH; reflexivity.
Qed.

Lemma destroyed_app (l : loc) (t1 t2 : list event) :
  destroyed l (t1 ++ t2) = destroyed l t1 + destroyed l t2.
Proof. unfold destroyed. rewrite deletions_app. apply count_occ_app. Qed.

Lemma deletions_delete_events (p : ptr) :
  deletions (delete_events p) = match p with Some l => [l] | None => [] end.
Proof. destruct p; reflexivity. Qed.

(** ** The programs, run *)

(** The starter program prints what the README gives as its final output,
    and destroys its resource once. *)
Example starter_main_console (R : loc) :
  exists s,
    starter_program.main R initial = Some (0, s) /\
    objs s = ∅ /\
    deletions (log s) = [R] /\
    console starter_program.MyClass (log s) =
      ["MyClass Constructor is called";
       "smartPointer instance created, Contructor is called!!";
       "overloading arrow oprator";
       "MyClass instance function!";
       "overloading dereference operator";
       "MyClass instance function!";
       "smartPointer deleted, Destructor is called!!";
       "MyClass is going out of scope!!!! Destructor is called"].
Proof.
  eexists. split; [vm_compute; reflexivity|].
  repeat split; vm_compute; reflexivity.
Qed.

(** The program of uniquePointer.cpp: the resource is destroyed once, by
    the destructor of the second wrapper, and the first wrapper, emptied by
    the transfer, releases a null handle and destroys nothing. *)
Example unique_main_console (R : loc) :
  exists s,
    unique_program.main R initial = Some (0, s) /\
    objs s = ∅ /\
    deletions (log s) = [R] /\
    console unique_program.MyClass (log s) =
      ["MyClass constructor called!";
       "UniquePointer instance created, Contructor is called!!";
       "overloading arrow oprator";
       "Hello from MyClass!";
       "Move constructor called";
       "utility function to release ownership";
       "Ownership transferred";
       "overloading arrow oprator";
       "Hello from MyClass!";
       "UniquePointer deleted, Destructor is called!!";
       "MyClass destructor called!";
       "UniquePointer deleted, Destructor is called!!"].
Proof.
  eexists. split; [vm_compute; reflexivity|].
  repeat split; vm_compute; reflexivity.
Qed.

(** ** What each member does to the machine *)

(** Unfolds a member down to the primitive statements and evaluates them
    with the lookups found in the context. *)
Ltac run_member :=
  unfold exec, bind, ret, cout, delete_, get_ptr, set_ptr, init_ptr, alive,
    end_lifetime; simpl;
  repeat (simplify_map_eq; simpl);
  rewrite <- ?app_assoc; simpl.

Section members.
Import UniquePointer.
Variables (this : addr) (s : machine).

Lemma ctor_eq (p : ptr) :
  objs s !! this = None ->
  ctor this p s =
  Some (tt, Machine (<[this := p]> (objs s))
                    (log s ++ [Store this p;
                       Cout "UniquePointer instance created, Contructor is called!!"])).
Proof. intros Hfree. unfold ctor. run_member. reflexivity. Qed.

Lemma dtor_eq (p : ptr) :
  objs s !! this = Some p ->
  dtor this s =
  Some (tt, Machine (delete this (objs s))
                    (log s ++ Cout "UniquePointer deleted, Destructor is called!!"
                           :: delete_events p)).
Proof. intros Hlive. unfold dtor. destruct p; run_member; reflexivity. Qed.

Lemma move_ctor_eq (other : addr) (q : ptr) :
  objs s !! this = None -> objs s !! other = Some q ->
  move_ctor this other s =
  Some (tt, Machine (<[other := None]> (<[this := q]> (objs s)))
                    (log s ++ [Store this q; Cout "Move constructor called";
                               Store other None])).
Proof.
  intros Hfree Hlive. unfold move_ctor.
  assert (this <> other) by congruence.
  run_member. reflexivity.
Qed.

Lemma move_assign_eq (other : addr) (p q : ptr) :
  this <> other ->
  objs s !! this = Some p -> objs s !! other = Some q ->
  move_assign this other s =
  Some (this, Machine (<[other := None]> (<[this := q]> (objs s)))
                      (log s ++ delete_events p ++
                         [Store this q; Store other None;
                          Cout "Move assignment operator called"])).
Proof.
  intros Hne Hthis Hother. unfold move_assign.
  destruct p; run_member; destruct (decide (this <> other)); try tauto;
    run_member; reflexivity.
Qed.

Lemma move_assign_self_eq (p : ptr) :
  objs s !! this = Some p ->
  move_assign this this s =
  Some (this, Machine (objs s)
                      (log s ++ [Cout "Move assignment operator called"])).
Proof.
  intros Hthis. unfold move_assign.
  run_member; destruct (decide (this <> this)); try tauto;
    run_member; reflexivity.
Qed.

Lemma release_eq (p : ptr) :
  objs s !! this = Some p ->
  release this s =
  Some (p, Machine (<[this := None]> (objs s))
                   (log s ++ [Cout "utility function to release ownership";
                              Store this None])).
Proof. intros Hlive. unfold release. run_member. reflexivity. Qed.

Lemma reset_eq (q p : ptr) :
  objs s !! this = Some q ->
  reset this p s =
  Some (tt, Machine (<[this := p]> (objs s))
                    (log s ++ Cout "utility function to reset the pointer with a new one"
                           :: delete_events q ++ [Store this p])).
Proof. intros Hlive. unfold reset. destruct q; run_member; reflexivity. Qed.

Lemma operator_star_eq (p : ptr) :
  objs s !! this = Some p ->
  operator_star this s =
  Some (builtin_deref p,
        Machine (objs s) (log s ++ [Cout "overloading dereference operator"])).
Proof. intros Hlive. unfold operator_star. run_member. reflexivity. Qed.

Lemma operator_arrow_eq (p : ptr) :
  objs s !! this = Some p ->
  operator_arrow this s =
  Some (p, Machine (objs s) (log s ++ [Cout "overloading arrow oprator"])).
Proof. intros Hlive. unfold operator_arrow. run_member. reflexivity. Qed.

End members.

(** ** Construction and destruction *)

Section lifetime.
Import UniquePointer.

(** C1. Constructing a [UniquePointer] over a resource [R] and then
    destroying it destroys [R] exactly once and nothing else: the
    destruction counter of [R] goes up by one, every other counter is
    unchanged, and the object table is as before.  Constructing an empty
    wrapper and destroying it destroys nothing.  In any state, the
    destructor of a live wrapper with handle [p] ends its lifetime and
    destroys the resource [p] designates when [p] is non-empty, and
    nothing when [p] is empty. *)
Theorem construct_destruct_destroys_once
    (this : addr) (R : loc) (s : machine)
    (that : addr) (p : ptr) (s0 : machine) :
  objs s !! this = None ->
  objs s0 !! that = Some p ->
  (exists s',
      exec (ctor this (Some R) ;; dtor this) s = Some s' /\
      objs s' = objs s /\
      deletions (log s') = deletions (log s) ++ [R] /\
      destroyed R (log s') = S (destroyed R (log s)) /\
      (forall l, l <> R -> destroyed l (log s') = destroyed l (log s)))
  /\ (exists s',
      exec (ctor_default this ;; dtor this) s = Some s' /\
      objs s' = objs s /\
      deletions (log s') = deletions (log s))
  /\ (exists s',
      exec (dtor that) s0 = Some s' /\
      objs s' = delete that (objs s0) /\
      deletions (log s') =
        deletions (log s0) ++ match p with Some l => [l] | None => [] end).
Proof.
  intros Hfree Hlive. repeat split.
  - unfold exec, bind. rewrite ctor_eq by assumption.
    rewrite (dtor_eq _ _ (Some R)) by (simpl; apply lookup_insert_eq).
    eexists; split; [reflexivity|]. simpl.
    split; [apply delete_insert_id; assumption|].
    rewrite <- app_assoc. split; [|split].
    + rewrite deletions_app. reflexivity.
    + rewrite destroyed_app. unfold destroyed at 2. simpl.
      destruct (Nat.eq_dec R R); [lia|congruence].
    + intros l Hl. rewrite destroyed_app. unfold destroyed at 2. simpl.
      destruct (Nat.eq_dec R l); [congruence|lia].
  - unfold ctor_default, exec, bind. rewrite ctor_eq by assumption.
    rewrite (dtor_eq _ _ None) by (simpl; apply lookup_insert_eq).
    eexists; split; [reflexivity|]. simpl.
    split; [apply delete_insert_id; assumption|].
    rewrite <- app_assoc, deletions_app. simpl. apply app_nil_r.
  - unfold exec. rewrite (dtor_eq _ _ p) by assumption.
    eexists; split; [reflexivity|]. simpl. split; [reflexivity|].
    rewrite deletions_app. simpl. rewrite deletions_delete_events.
    reflexivity.
Qed.

Lemma construct_destruct_destroys_once_witness :
  exists s',
    exec (ctor 0 (Some 7) ;; dtor 0) initial = Some s' /\
    destroyed 7 (log s') = 1.
Proof.
  destruct (construct_destruct_destroys_once
              0 7 initial 1 None (Machine {[1 := None]} []))
    as [[s' (Hrun & _ & _ & Hcount & _)] _]; [reflexivity|reflexivity|].
  exists s'. split; [exact Hrun | exact Hcount].
Defined.

End lifetime.

(** ** Transfer of ownership *)

Section transfer.
Import UniquePointer.

(** C3. Transfer-assignment between two distinct live wrappers, the
    receiver owning [X] and the source owning [Y]: the call returns the
    receiver, destroys [X] once and nothing else while it runs (before the
    receiver's handle is overwritten), leaves the receiver with handle [Y]
    and the source empty, and touches no other object; destroying both
    wrappers afterwards destroys [Y] once and [X] no more.  Assigning any
    live wrapper [self] to itself, whatever its handle [h] and whether or
    not another wrapper exists, returns the wrapper, changes no object and
    destroys nothing: it only prints its diagnostic line, the wrapper still
    has handle [h], and its destructor afterwards destroys the resource of
    [h] once. *)
Theorem move_assign_transfers
    (this other : addr) (X Y : loc) (s : machine)
    (self : addr) (h : ptr) (s0 : machine) :
  this <> other ->
  objs s !! this = Some (Some X) ->
  objs s !! other = Some (Some Y) ->
  objs s0 !! self = Some h ->
  (exists s',
      move_assign this other s = Some (this, s') /\
      objs s' !! this = Some (Some Y) /\
      objs s' !! other = Some None /\
      (forall k, k <> this -> k <> other -> objs s' !! k = objs s !! k) /\
      log s' = log s ++ [Destroy X; Store this (Some Y); Store other None;
                         Cout "Move assignment operator called"] /\
      deletions (log s') = deletions (log s) ++ [X] /\
      (exists s'',
          exec (dtor this ;; dtor other) s' = Some s'' /\
          deletions (log s'') = deletions (log s) ++ [X; Y]))
  /\ (exists s',
      move_assign self self s0 = Some (self, s') /\
      objs s' = objs s0 /\
      objs s' !! self = Some h /\
      log s' = log s0 ++ [Cout "Move assignment operator called"] /\
      deletions (log s') = deletions (log s0) /\
      (exists s'',
          exec (dtor self) s' = Some s'' /\
          deletions (log s'') = deletions (log s0) ++ option_list h)).
Proof.
  intros Hne Hthis Hother Hself. split.
  - rewrite (move_assign_eq _ _ _ (Some X) (Some Y)) by assumption.
    eexists; split; [reflexivity|]. simpl.
    split; [by simplify_map_eq|]. split; [by simplify_map_eq|].
    split; [intros k Hk1 Hk2; by simplify_map_eq|].
    split; [reflexivity|].
    split; [rewrite deletions_app; reflexivity|].
    unfold exec, bind.
    rewrite (dtor_eq _ _ (Some Y)) by (simpl; by simplify_map_eq).
    rewrite (dtor_eq _ _ None) by (simpl; by simplify_map_eq).
    eexists; split; [reflexivity|]. simpl.
    rewrite <- !app_assoc, deletions_app. reflexivity.
  - rewrite (move_assign_self_eq _ _ h) by assumption.
    eexists; split; [reflexivity|]. simpl.
    split; [reflexivity|]. split; [assumption|]. split; [reflexivity|].
    split; [rewrite deletions_app; simpl; apply app_nil_r|].
    unfold exec. rewrite (dtor_eq _ _ h) by assumption.
    eexists; split; [reflexivity|]. simpl.
    rewrite <- app_assoc, deletions_app. simpl.
    rewrite deletions_delete_events. destruct h; reflexivity.
Qed.

Lemma move_assign_transfers_witness :
  (exists s',
      move_assign 0 1 (Machine {[0 := Some 7; 1 := Some 8]} []) = Some (0, s') /\
      objs s' !! 0 = Some (Some 8) /\
      objs s' !! 1 = Some None /\
      deletions (log s') = [7])
  /\ (exists s',
      move_assign 0 0 (Machine {[0 := Some 7]} []) = Some (0, s') /\
      objs s' = {[0 := Some 7]} /\
      objs s' !! 0 = Some (Some 7) /\
      deletions (log s') = []).
Proof.
  destruct (move_assign_transfers
              0 1 7 8 (Machine {[0 := Some 7; 1 := Some 8]} [])
              0 (Some 7) (Machine {[0 := Some 7]} []))
    as [[s' (Hrun & Hthis & Hother & _ & _ & Hdel & _)]
        [s0' (Hself & Hobjs & Hh & _ & Hdel0 & _)]];
    [lia | reflexivity | reflexivity | reflexivity |].
  split.
  - exists s'. repeat split; assumption.
  - exists s0'. repeat split; assumption.
Defined.

(** C4. Transfer-construction of a new wrapper [this] from a live wrapper
    [other] with any handle [q], empty or not: [this] starts with handle
    [q], [other] is left empty, no other object changes, and nothing is
    destroyed.  Destroying the new wrapper afterwards destroys the
    resource of [q] once, and destroying the source after that destroys
    nothing. *)
Theorem move_ctor_adopts
    (this other : addr) (q : ptr) (s : machine) :
  objs s !! this = None ->
  objs s !! other = Some q ->
  exists s',
    exec (move_ctor this other) s = Some s' /\
    objs s' !! this = Some q /\
    objs s' !! other = Some None /\
    (forall k, k <> this -> k <> other -> objs s' !! k = objs s !! k) /\
    deletions (log s') = deletions (log s) /\
    (exists s'',
        exec (dtor this) s' = Some s'' /\
        deletions (log s'') =
          deletions (log s) ++ match q with Some l => [l] | None => [] end /\
        (exists s''',
            exec (dtor other) s'' = Some s''' /\
            deletions (log s''') = deletions (log s''))).
Proof.
  intros Hfree Hlive. assert (this <> other) by congruence.
  unfold exec. rewrite (move_ctor_eq _ _ _ q) by assumption.
  eexists; split; [reflexivity|]. simpl.
  split; [by simplify_map_eq|]. split; [by simplify_map_eq|].
  split; [intros k Hk1 Hk2; by simplify_map_eq|].
  split; [rewrite deletions_app; simpl; apply app_nil_r|].
  rewrite (dtor_eq _ _ q) by (simpl; by simplify_map_eq).
  eexists; split; [reflexivity|]. simpl.
  split.
  - rewrite <- app_assoc, deletions_app. simpl.
    rewrite deletions_delete_events. reflexivity.
  - rewrite (dtor_eq _ _ None) by (simpl; by simplify_map_eq).
    eexists; split; [reflexivity|]. simpl.
    rewrite <- !app_assoc, !deletions_app. simpl.
    rewrite app_nil_r. reflexivity.
Qed.

Lemma move_ctor_adopts_witness :
  exists s',
    exec (move_ctor 1 0) (Machine {[0 := Some 7]} []) = Some s' /\
    objs s' !! 1 = Some (Some 7) /\
    objs s' !! 0 = Some None /\
    deletions (log s') = [].
Proof.
  destruct (move_ctor_adopts 1 0 (Some 7) (Machine {[0 := Some 7]} []))
    as [s' (Hrun & Hthis & Hother & _ & Hdel & _)];
    [reflexivity | reflexivity |].
  exists s'. repeat split; assumption.
Defined.

End transfer.

(** ** Manual release and reset *)

Section release_reset.
Import UniquePointer.

(** C5. [release] on a live wrapper with handle [p] returns [p], leaves
    the wrapper alive with an empty handle, changes no other object and
    destroys nothing; destroying the wrapper afterwards destroys nothing
    either. *)
Theorem release_hands_over (this : addr) (p : ptr) (s : machine) :
  objs s !! this = Some p ->
  exists s',
    release this s = Some (p, s') /\
    objs s' !! this = Some None /\
    (forall k, k <> this -> objs s' !! k = objs s !! k) /\
    deletions (log s') = deletions (log s) /\
    (exists s'',
        exec (dtor this) s' = Some s'' /\
        deletions (log s'') = deletions (log s)).
Proof.
  intros Hlive. rewrite (release_eq _ _ p) by assumption.
  eexists; split; [reflexivity|]. simpl.
  split; [by simplify_map_eq|].
  split; [intros k Hk; by simplify_map_eq|].
  split; [rewrite deletions_app; simpl; apply app_nil_r|].
  unfold exec. rewrite (dtor_eq _ _ None) by (simpl; by simplify_map_eq).
  eexists; split; [reflexivity|]. simpl.
  rewrite <- app_assoc, deletions_app. simpl. apply app_nil_r.
Qed.

Lemma release_hands_over_witness :
  exists s',
    release 0 (Machine {[0 := Some 7]} []) = Some (Some 7, s') /\
    objs s' !! 0 = Some None /\
    deletions (log s') = [].
Proof.
  destruct (release_hands_over 0 (Some 7) (Machine {[0 := Some 7]} []))
    as [s' (Hrun & Hthis & _ & Hdel & _)]; [reflexivity|].
  exists s'. repeat split; assumption.
Defined.

(** C6. [reset(p)] on a live wrapper that owns [R] destroys [R] once and
    nothing else, and it does so before it stores [p]: the call logs its
    diagnostic line, then the destruction of [R], then the write of [p]
    into the handle; afterwards the handle is [p].  [reset()] destroys [R]
    once and leaves the wrapper empty.  On a live wrapper whose handle is
    empty, [reset] destroys nothing and stores its argument. *)
Theorem reset_replaces
    (this : addr) (R : loc) (p : ptr) (s : machine)
    (that : addr) (s0 : machine) :
  objs s !! this = Some (Some R) ->
  objs s0 !! that = Some None ->
  (exists s',
      exec (reset this p) s = Some s' /\
      objs s' = <[this := p]> (objs s) /\
      objs s' !! this = Some p /\
      log s' = log s ++
               [Cout "utility function to reset the pointer with a new one";
                Destroy R; Store this p] /\
      deletions (log s') = deletions (log s) ++ [R])
  /\ (exists s',
      exec (reset_default this) s = Some s' /\
      objs s' !! this = Some None /\
      deletions (log s') = deletions (log s) ++ [R])
  /\ (exists s',
      exec (reset that p) s0 = Some s' /\
      objs s' !! that = Some p /\
      deletions (log s') = deletions (log s0)).
Proof.
  intros Hown Hempty. repeat split.
  - unfold exec. rewrite (reset_eq _ _ (Some R)) by assumption.
    eexists; split; [reflexivity|]. simpl.
    split; [reflexivity|]. split; [by simplify_map_eq|].
    split; [reflexivity|]. rewrite deletions_app. reflexivity.
  - unfold reset_default, exec.
    rewrite (reset_eq _ _ (Some R)) by assumption.
    eexists; split; [reflexivity|]. simpl.
    split; [by simplify_map_eq|]. rewrite deletions_app. reflexivity.
  - unfold exec. rewrite (reset_eq _ _ None) by assumption.
    eexists; split; [reflexivity|]. simpl.
    split; [by simplify_map_eq|].
    rewrite deletions_app. simpl. apply app_nil_r.
Qed.

Lemma reset_replaces_witness :
  exists s',
    exec (reset 0 (Some 8)) (Machine {[0 := Some 7]} []) = Some s' /\
    objs s' !! 0 = Some (Some 8) /\
    deletions (log s') = [7].
Proof.
  destruct (reset_replaces 0 7 (Some 8) (Machine {[0 := Some 7]} [])
                           1 (Machine {[1 := None]} []))
    as [[s' (Hrun & _ & Hthis & _ & Hdel)] _]; [reflexivity|reflexivity|].
  exists s'. repeat split; assumption.
Defined.

(** C10. [w.reset(w.release())] on a live wrapper with any handle [h]:
    the argument [w.release()] is evaluated first and empties the handle,
    so the [delete] of [reset] acts on [nullptr]; nothing is destroyed and
    the wrapper ends with the handle [h] it started with, every object
    being as before. *)
Theorem reset_release_roundtrip (w : addr) (h : ptr) (s : machine) :
  objs s !! w = Some h ->
  exists s',
    exec (p <- release w ;; reset w p) s = Some s' /\
    objs s' = objs s /\
    objs s' !! w = Some h /\
    deletions (log s') = deletions (log s) /\
    log s' = log s ++
             [Cout "utility function to release ownership"; Store w None;
              Cout "utility function to reset the pointer with a new one";
              Store w h].
Proof.
  intros Hlive. unfold exec, bind.
  rewrite (release_eq _ _ h) by assumption.
  rewrite (reset_eq _ _ None) by (simpl; by simplify_map_eq).
  eexists; split; [reflexivity|]. simpl.
  assert (Hobjs : <[w := h]> (<[w := None]> (objs s)) = objs s).
  { rewrite insert_insert_eq. apply insert_id. assumption. }
  split; [exact Hobjs|]. split; [rewrite Hobjs; assumption|].
  rewrite <- app_assoc. simpl. split; [|reflexivity].
  rewrite deletions_app. simpl. apply app_nil_r.
Qed.

Lemma reset_release_roundtrip_witness :
  exists s',
    exec (p <- release 0 ;; reset 0 p) (Machine {[0 := Some 7]} []) = Some s' /\
    objs s' = {[0 := Some 7]} /\
    deletions (log s') = [].
Proof.
  destruct (reset_release_roundtrip 0 (Some 7) (Machine {[0 := Some 7]} []))
    as [s' (Hrun & Hobjs & _ & Hdel & _)]; [reflexivity|].
  exists s'. repeat split; assumption.
Defined.

End release_reset.

(** ** The exclusive-ownership invariant *)

Section invariant.
Import UniquePointer.

Lemma exclusive_insert (this : addr) (p : ptr) (s s' : machine) :
  exclusive s -> unclaimed this p s ->
  objs s' = <[this := p]> (objs s) -> exclusive s'.
Proof.
  intros Hex Hun Hobjs i j l Hi Hj. rewrite Hobjs in Hi, Hj.
  destruct (decide (i = this)) as [->|Hni], (decide (j = this)) as [->|Hnj];
    simplify_map_eq; try reflexivity.
  - exfalso. simpl in Hun.
    destruct (Hun j _ Hj) as [Hc|Hc]; [exact (Hnj Hc) | exact (Hc eq_refl)].
  - exfalso. simpl in Hun.
    destruct (Hun i _ Hi) as [Hc|Hc]; [exact (Hni Hc) | exact (Hc eq_refl)].
  - eapply Hex; eassumption.
Qed.

Lemma exclusive_delete (this : addr) (s s' : machine) :
  exclusive s -> objs s' = delete this (objs s) -> exclusive s'.
Proof.
  intros Hex Hobjs i j l Hi Hj. rewrite Hobjs in Hi, Hj.
  apply lookup_delete_Some in Hi as [_ Hi].
  apply lookup_delete_Some in Hj as [_ Hj].
  eapply Hex; eassumption.
Qed.

Lemma exclusive_transfer (this other : addr) (q : ptr) (s s' : machine) :
  exclusive s -> this <> other -> objs s !! other = Some q ->
  objs s' = <[other := None]> (<[this := q]> (objs s)) -> exclusive s'.
Proof.
  intros Hex Hne Hother Hobjs i j l Hi Hj. rewrite Hobjs in Hi, Hj.
  destruct (decide (i = other)) as [->|Hio]; [by simplify_map_eq|].
  destruct (decide (j = other)) as [->|Hjo]; [by simplify_map_eq|].
  rewrite lookup_insert_ne in Hi, Hj by congruence.
  destruct (decide (i = this)) as [->|Hi'], (decide (j = this)) as [->|Hj'];
    simplify_map_eq; try reflexivity.
  - exfalso. apply Hjo. eapply Hex; eassumption.
  - exfalso. apply Hio. eapply Hex; eassumption.
  - eapply Hex; eassumption.
Qed.

(** One admissible operation keeps ownership exclusive. *)
Lemma step_exclusive (o : op) (s s' : machine) :
  exclusive s -> admissible o s = true -> exec (step o) s = Some s' ->
  exclusive s'.
Proof.
  intros Hex Hadm Hrun. destruct o as [this p|this other|this other|this|this p|this];
    simpl in Hadm, Hrun.
  - apply bool_decide_eq_true in Hadm.
    destruct (objs s !! this) as [q|] eqn:E.
    + exfalso. revert Hrun. unfold ctor. run_member. discriminate.
    + unfold exec in Hrun. rewrite ctor_eq in Hrun by assumption.
      inversion Hrun; subst s'; clear Hrun.
      eapply exclusive_insert; [exact Hex | exact Hadm | reflexivity].
  - destruct (objs s !! other) as [q|] eqn:Eo;
      [|exfalso; revert Hrun; unfold move_ctor; run_member; discriminate].
    destruct (objs s !! this) as [p|] eqn:Et;
      [exfalso; revert Hrun; unfold move_ctor; run_member; discriminate|].
    unfold exec in Hrun. rewrite (move_ctor_eq _ _ _ q) in Hrun by assumption.
    inversion Hrun; subst s'; clear Hrun.
    eapply (exclusive_transfer this other q);
      [exact Hex | congruence | exact Eo | reflexivity].
  - destruct (objs s !! this) as [p|] eqn:Et;
      [|exfalso; revert Hrun; unfold move_assign; run_member; discriminate].
    destruct (decide (this = other)) as [<-|Hne].
    + unfold exec, bind in Hrun.
      rewrite (move_assign_self_eq _ _ p) in Hrun by assumption.
      inversion Hrun; subst s'; clear Hrun.
      intros i j l Hi Hj. eapply Hex; eassumption.
    + destruct (objs s !! other) as [q|] eqn:Eo;
        [|exfalso; revert Hrun; unfold move_assign; run_member; discriminate].
      unfold exec, bind in Hrun.
      rewrite (move_assign_eq _ _ _ p q) in Hrun by assumption.
      inversion Hrun; subst s'; clear Hrun.
      eapply (exclusive_transfer this other q);
        [exact Hex | exact Hne | exact Eo | reflexivity].
  - destruct (objs s !! this) as [p|] eqn:Et;
      [|exfalso; revert Hrun; unfold release; run_member; discriminate].
    unfold exec, bind in Hrun. rewrite (release_eq _ _ p) in Hrun by assumption.
    inversion Hrun; subst s'; clear Hrun.
    eapply (exclusive_insert this None); [exact Hex | exact I | reflexivity].
  - apply bool_decide_eq_true in Hadm.
    destruct (objs s !! this) as [q|] eqn:Et;
      [|exfalso; revert Hrun; unfold reset; run_member; discriminate].
    unfold exec in Hrun. rewrite (reset_eq _ _ q) in Hrun by assumption.
    inversion Hrun; subst s'; clear Hrun.
    eapply exclusive_insert; [exact Hex | exact Hadm | reflexivity].
  - destruct (objs s !! this) as [q|] eqn:Et;
      [|exfalso; revert Hrun; unfold dtor; run_member; discriminate].
    unfold exec in Hrun. rewrite (dtor_eq _ _ q) in Hrun by assumption.
    inversion Hrun; subst s'; clear Hrun.
    eapply exclusive_delete; [exact Hex | reflexivity].
Qed.

(** C2, as stated, fails: constructors take any raw pointer, so two
    wrappers built over the same resource are both alive with the same
    handle. *)
Lemma exclusive_broken_by_shared_raw_pointer :
  ~ (forall s, reachable any_op s -> exclusive s).
Proof.
  intros Hall.
  assert (Hreach : reachable any_op
            (Machine {[0 := Some 7; 1 := Some 7]}
               [Store 0 (Some 7);
                Cout "UniquePointer instance created, Contructor is called!!";
                Store 1 (Some 7);
                Cout "UniquePointer instance created, Contructor is called!!"])).
  { eapply (reach_step _ _ (Construct 1 (Some 7))); [|reflexivity|].
    - eapply (reach_step _ _ (Construct 0 (Some 7)));
        [apply reach_initial | reflexivity | reflexivity].
    - vm_compute. reflexivity. }
  specialize (Hall _ Hreach 0 1 7). simpl in Hall.
  assert (0 = 1) by (apply Hall; reflexivity). discriminate.
Qed.

(** C2, amended.  In every state a program reaches by constructions,
    transfer-constructions, transfer-assignments, releases, resets and
    destructions, where each raw pointer handed to a constructor or to
    [reset] is empty or is not the handle of another live wrapper, the
    handle of each live wrapper is empty or is the handle of no other
    live wrapper. *)
Theorem exclusive_ownership (s : machine) :
  reachable admissible s -> exclusive s.
Proof.
  induction 1 as [|s o s' _ IH Hadm Hrun].
  - intros i j l Hi. simpl in Hi. rewrite lookup_empty in Hi. discriminate.
  - eapply step_exclusive; eassumption.
Qed.

Lemma exclusive_ownership_witness :
  exists s,
    exec (run [Construct 0 (Some 7); MoveConstruct 1 0; ResetTo 0 (Some 8)])
         initial = Some s /\
    exclusive s.
Proof.
  eexists. split; [vm_compute; reflexivity|].
  apply exclusive_ownership.
  pose proof (reach_initial admissible) as H0.
  pose proof (reach_step _ _ (Construct 0 (Some 7)) _ H0 eq_refl eq_refl) as H1.
  pose proof (reach_step _ _ (MoveConstruct 1 0) _ H1 eq_refl eq_refl) as H2.
  exact (reach_step _ _ (ResetTo 0 (Some 8)) _ H2 eq_refl eq_refl).
Defined.

End invariant.

(** ** [smartPointer]: copies share the handle *)

Section simple_owner.
Import smartPointer.

Lemma sp_dtor_eq (this : addr) (p : ptr) (s : machine) :
  objs s !! this = Some p ->
  dtor this s =
  Some (tt, Machine (delete this (objs s))
                    (log s ++ Cout "smartPointer deleted, Destructor is called!!"
                           :: delete_events p)).
Proof. intros Hlive. unfold dtor. destruct p; run_member; reflexivity. Qed.

Lemma sp_copy_ctor_eq (this other : addr) (q : ptr) (s : machine) :
  objs s !! this = None -> objs s !! other = Some q ->
  copy_ctor this other s =
  Some (tt, Machine (<[this := q]> (objs s)) (log s ++ [Store this q])).
Proof. intros Hfree Hlive. unfold copy_ctor. run_member. reflexivity. Qed.

(** C8. A [smartPointer] [b] made as a copy of a live [smartPointer] [a]
    that manages [R] gets the same handle, [a] keeps it, and nothing is
    destroyed by the copy; the destructor of a live [smartPointer]
    destroys whatever non-empty handle it holds.  So destroying [b] and
    then [a] destroys [R] twice: the destruction counter of [R] goes up by
    two. *)
Theorem smartPointer_copy_destroys_twice
    (a b : addr) (R : loc) (s : machine) :
  objs s !! a = Some (Some R) ->
  objs s !! b = None ->
  exists s1,
    exec (copy_ctor b a) s = Some s1 /\
    objs s1 !! a = Some (Some R) /\
    objs s1 !! b = Some (Some R) /\
    deletions (log s1) = deletions (log s) /\
    (exists s2,
        exec (dtor b ;; dtor a) s1 = Some s2 /\
        deletions (log s2) = deletions (log s) ++ [R; R] /\
        destroyed R (log s2) = 2 + destroyed R (log s)).
Proof.
  intros Ha Hb.
  assert (a <> b) by congruence.
  unfold exec. rewrite (sp_copy_ctor_eq _ _ (Some R)) by assumption.
  eexists; split; [reflexivity|]. simpl.
  split; [by simplify_map_eq|]. split; [by simplify_map_eq|].
  split; [rewrite deletions_app; simpl; apply app_nil_r|].
  unfold bind.
  rewrite (sp_dtor_eq _ (Some R)) by (simpl; by simplify_map_eq).
  rewrite (sp_dtor_eq _ (Some R)) by (simpl; by simplify_map_eq).
  eexists; split; [reflexivity|]. simpl.
  rewrite <- !app_assoc. simpl. split.
  - rewrite deletions_app. reflexivity.
  - rewrite destroyed_app. unfold destroyed at 2. simpl.
    destruct (Nat.eq_dec R R); [lia|congruence].
Qed.

Lemma smartPointer_copy_destroys_twice_witness :
  exists s1 s2,
    exec (copy_ctor 1 0) (Machine {[0 := Some 7]} []) = Some s1 /\
    exec (dtor 1 ;; dtor 0) s1 = Some s2 /\
    destroyed 7 (log s2) = 2.
Proof.
  destruct (smartPointer_copy_destroys_twice
              0 1 7 (Machine {[0 := Some 7]} []))
    as (s1 & Hcopy & _ & _ & _ & s2 & Hrun & _ & Hcount);
    [reflexivity | reflexivity |].
  exists s1, s2. repeat split; assumption.
Defined.

End simple_owner.

(** ** Unchecked access *)

Section access.
Import UniquePointer.

(** C9. On a live wrapper whose handle designates [R], [operator*]
    returns the reference to [R] and [operator->] returns the raw handle
    [R], so that [x->m] designates a member of that same resource.  Neither
    operator tests the handle: on a live wrapper with an empty handle both
    calls run to their end without any report, [operator*] with an
    undefined result and [operator->] with the null handle, through which
    the member access is undefined.  In all cases the only effect is the
    diagnostic line: no object changes and nothing is destroyed. *)
Theorem access_is_unchecked
    (this : addr) (R : loc) (s : machine) (that : addr) (s0 : machine) :
  objs s !! this = Some (Some R) ->
  objs s0 !! that = Some None ->
  (operator_star this s =
     Some (Defined_ (Ref R),
           Machine (objs s) (log s ++ [Cout "overloading dereference operator"])) /\
   operator_arrow this s =
     Some (Some R,
           Machine (objs s) (log s ++ [Cout "overloading arrow oprator"])) /\
   member_access this s =
     Some (Defined_ (Ref R),
           Machine (objs s) (log s ++ [Cout "overloading arrow oprator"])))
  /\
  (operator_star that s0 =
     Some (Undefined,
           Machine (objs s0) (log s0 ++ [Cout "overloading dereference operator"])) /\
   operator_arrow that s0 =
     Some (None,
           Machine (objs s0) (log s0 ++ [Cout "overloading arrow oprator"])) /\
   member_access that s0 =
     Some (Undefined,
           Machine (objs s0) (log s0 ++ [Cout "overloading arrow oprator"]))).
Proof.
  intros Hown Hempty. unfold member_access, bind.
  rewrite (operator_star_eq _ _ (Some R)), (operator_arrow_eq _ _ (Some R))
    by assumption.
  rewrite (operator_star_eq _ _ None), (operator_arrow_eq _ _ None)
    by assumption.
  repeat split.
Qed.

Lemma access_is_unchecked_witness :
  operator_star 0 (Machine {[0 := Some 7]} []) =
    Some (Defined_ (Ref 7),
          Machine {[0 := Some 7]} [Cout "overloading dereference operator"]) /\
  operator_star 1 (Machine {[1 := None]} []) =
    Some (Undefined,
          Machine {[1 := None]} [Cout "overloading dereference operator"]).
Proof.
  destruct (access_is_unchecked 0 7 (Machine {[0 := Some 7]} [])
                                1 (Machine {[1 := None]} []))
    as [(Hstar & _ & _) (Hstar0 & _ & _)]; [reflexivity | reflexivity |].
  split; [exact Hstar | exact Hstar0].
Defined.

End access.

(** ** Every operation, case by case *)

Section operations.
Import UniquePointer.

Lemma deletions_events (p : ptr) :
  deletions (delete_events p) = option_list p.
Proof. destruct p; reflexivity. Qed.

(** What an operation that ran did to the object table and to the list of
    destroyed resources. *)
Lemma step_shape (o : op) (s s' : machine) :
  exec (step o) s = Some s' ->
  match o with
  | Construct this p =>
      objs s !! this = None /\
      objs s' = <[this := p]> (objs s) /\
      deletions (log s') = deletions (log s)
  | MoveConstruct this other =>
      exists q, objs s !! this = None /\ objs s !! other = Some q /\
        this <> other /\
        objs s' = <[other := None]> (<[this := q]> (objs s)) /\
        deletions (log s') = deletions (log s)
  | MoveAssign this other =>
      exists p q, objs s !! this = Some p /\ objs s !! other = Some q /\
        ((this = other /\ objs s' = objs s /\
          deletions (log s') = deletions (log s)) \/
         (this <> other /\
          objs s' = <[other := None]> (<[this := q]> (objs s)) /\
          deletions (log s') = deletions (log s) ++ option_list p))
  | Release this =>
      exists p, objs s !! this = Some p /\
        objs s' = <[this := None]> (objs s) /\
        deletions (log s') = deletions (log s)
  | ResetTo this p =>
      exists q, objs s !! this = Some q /\
        objs s' = <[this := p]> (objs s) /\
        deletions (log s') = deletions (log s) ++ option_list q
  | Destruct this =>
      exists q, objs s !! this = Some q /\
        objs s' = delete this (objs s) /\
        deletions (log s') = deletions (log s) ++ option_list q
  end.
Proof.
  intros Hrun.
  destruct o as [this p|this other|this other|this|this p|this];
    simpl in Hrun.
  - destruct (objs s !! this) as [q|] eqn:E;
      [exfalso; revert Hrun; unfold ctor; run_member; discriminate|].
    unfold exec in Hrun. rewrite ctor_eq in Hrun by assumption.
    inversion Hrun; subst s'; simpl.
    repeat split. rewrite deletions_app. simpl. apply app_nil_r.
  - destruct (objs s !! other) as [q|] eqn:Eo;
      [|exfalso; revert Hrun; unfold move_ctor; run_member; discriminate].
    destruct (objs s !! this) as [p|] eqn:Et;
      [exfalso; revert Hrun; unfold move_ctor; run_member; discriminate|].
    unfold exec in Hrun. rewrite (move_ctor_eq _ _ _ q) in Hrun by assumption.
    inversion Hrun; subst s'; simpl.
    exists q. repeat split; [congruence|].
    rewrite deletions_app. simpl. apply app_nil_r.
  - destruct (objs s !! this) as [p|] eqn:Et;
      [|exfalso; revert Hrun; unfold move_assign; run_member; discriminate].
    destruct (decide (this = other)) as [<-|Hne].
    + unfold exec, bind in Hrun.
      rewrite (move_assign_self_eq _ _ p) in Hrun by assumption.
      inversion Hrun; subst s'; simpl.
      exists p, p. repeat split; [assumption|]. left. repeat split.
      rewrite deletions_app. simpl. apply app_nil_r.
    + destruct (objs s !! other) as [q|] eqn:Eo;
        [|exfalso; revert Hrun; unfold move_assign; run_member; discriminate].
      unfold exec, bind in Hrun.
      rewrite (move_assign_eq _ _ _ p q) in Hrun by assumption.
      inversion Hrun; subst s'; simpl.
      exists p, q. repeat split. right. repeat split; [assumption|].
      rewrite !deletions_app, deletions_events. simpl.
      rewrite app_nil_r. reflexivity.
  - destruct (objs s !! this) as [p|] eqn:Et;
      [|exfalso; revert Hrun; unfold release; run_member; discriminate].
    unfold exec, bind in Hrun. rewrite (release_eq _ _ p) in Hrun by assumption.
    inversion Hrun; subst s'; simpl.
    exists p. repeat split. rewrite deletions_app. simpl. apply app_nil_r.
  - destruct (objs s !! this) as [q|] eqn:Et;
      [|exfalso; revert Hrun; unfold reset; run_member; discriminate].
    unfold exec in Hrun. rewrite (reset_eq _ _ q) in Hrun by assumption.
    inversion Hrun; subst s'; simpl.
    exists q. repeat split.
    rewrite deletions_app. simpl. rewrite deletions_app, deletions_events.
    simpl. rewrite app_nil_r. reflexivity.
  - destruct (objs s !! this) as [q|] eqn:Et;
      [|exfalso; revert Hrun; unfold dtor; run_member; discriminate].
    unfold exec in Hrun. rewrite (dtor_eq _ _ q) in Hrun by assumption.
    inversion Hrun; subst s'; simpl.
    exists q. repeat split.
    rewrite deletions_app. simpl. rewrite deletions_events. reflexivity.
Qed.

End operations.

(** ** What operations never do *)

Section never.

(** X1. An operation changes no wrapper object other than the ones it is
    called on: a third object keeps its handle, and stays alive or absent. *)
Theorem step_frame (o : op) (s s' : machine) (k : addr) :
  exec (step o) s = Some s' ->
  k ∉ named o ->
  objs s' !! k = objs s !! k.
Proof.
  intros Hrun Hk. apply step_shape in Hrun.
  destruct o as [this p|this other|this other|this|this p|this];
    simpl in Hk; rewrite ?not_elem_of_cons in Hk;
    destruct Hk as [Hk1 Hk2]; try destruct Hk2 as [Hk2 _].
  - destruct Hrun as (_ & -> & _). apply lookup_insert_ne. congruence.
  - destruct Hrun as (q & _ & _ & _ & -> & _).
    rewrite !lookup_insert_ne by congruence. reflexivity.
  - destruct Hrun as (p & q & _ & _ & [(_ & -> & _)|(_ & -> & _)]);
      [reflexivity|].
    rewrite !lookup_insert_ne by congruence. reflexivity.
  - destruct Hrun as (p & _ & -> & _). apply lookup_insert_ne. congruence.
  - destruct Hrun as (q & _ & -> & _). apply lookup_insert_ne. congruence.
  - destruct Hrun as (q & _ & -> & _). apply lookup_delete_ne. congruence.
Qed.

Lemma step_frame_witness :
  exists s',
    exec (step (MoveAssign 0 1))
         (Machine {[0 := Some 7; 1 := Some 8; 2 := Some 9]} []) = Some s' /\
    objs s' !! 2 = Some (Some 9).
Proof.
  eexists. split; [vm_compute; reflexivity|].
  rewrite (step_frame (MoveAssign 0 1)
             (Machine {[0 := Some 7; 1 := Some 8; 2 := Some 9]} []) _ 2);
    [reflexivity | vm_compute; reflexivity |].
  simpl. rewrite !not_elem_of_cons. repeat split; try lia.
  apply not_elem_of_nil.
Defined.

Lemma destroyed_snoc (l : loc) (t t' : list event) (q : ptr) :
  deletions t' = deletions t ++ option_list q ->
  destroyed l t' =
  destroyed l t + (if decide (q = Some l) then 1 else 0).
Proof.
  intros Hd. unfold destroyed. rewrite Hd, count_occ_app.
  destruct q as [x|]; simpl.
  - destruct (Nat.eq_dec x l) as [Hx|Hx],
      (decide (Some x = Some l)) as [Hs|Hs]; try reflexivity; exfalso.
    + apply Hs. f_equal. exact Hx.
    + apply Hx. injection Hs. trivial.
  - destruct (decide (None = Some l)); [discriminate|reflexivity].
Qed.



End never.

(** ** Memory safety of disciplined programs *)

Section safety.

Lemma disciplined_admissible (o : op) (s : machine) :
  disciplined o s = true -> admissible o s = true.
Proof.
  destruct o as [this p| | | |this p|]; simpl; try reflexivity;
    intros H; apply bool_decide_eq_true in H; apply bool_decide_eq_true;
    (destruct p as [l|]; simpl in *; [|exact I]);
    destruct H as [H _]; intros i q Hi; right; exact (H i q Hi).
Qed.

(** Destroying the handle of a live object keeps the list of destroyed
    resources free of repetitions. *)
Lemma destroy_handle_NoDup (s : machine) (this : addr) (q : ptr) :
  memory_safe s -> objs s !! this = Some q ->
  NoDup (deletions (log s) ++ option_list q).
Proof.
  intros (_ & Hnd & Hlive) Hthis. destruct q as [x|]; simpl.
  - apply NoDup_app. split; [exact Hnd|]. split; [|apply NoDup_singleton].
    intros y Hy Hyx. apply list_elem_of_singleton in Hyx. subst y.
    exact (Hlive this x Hthis Hy).
  - rewrite app_nil_r. exact Hnd.
Qed.

(** The handle of another live object is not among them. *)
Lemma destroy_handle_other (s : machine) (this j : addr) (q : ptr) (l : loc) :
  memory_safe s -> objs s !! this = Some q ->
  objs s !! j = Some (Some l) -> j <> this ->
  l ∉ deletions (log s) ++ option_list q.
Proof.
  intros (Hex & _ & Hlive) Hthis Hj Hne Hin.
  apply elem_of_app in Hin as [Hin|Hin].
  - exact (Hlive j l Hj Hin).
  - destruct q as [x|]; simpl in Hin.
    + apply list_elem_of_singleton in Hin. subst x.
      apply Hne. exact (Hex j this l Hj Hthis).
    + apply not_elem_of_nil in Hin. exact Hin.
Qed.

Lemma step_memory_safe (o : op) (s s' : machine) :
  memory_safe s -> disciplined o s = true -> exec (step o) s = Some s' ->
  memory_safe s'.
Proof.
  intros Hsafe Hdis Hrun.
  assert (Hex' : exclusive s').
  { destruct Hsafe as (Hex & _ & _).
    exact (step_exclusive o s s' Hex (disciplined_admissible o s Hdis) Hrun). }
  pose proof Hsafe as (Hex & Hnd & Hlive).
  apply step_shape in Hrun.
  split; [exact Hex'|]. clear Hex'.
  destruct o as [this p|this other|this other|this|this p|this];
    simpl in Hdis.
  - destruct Hrun as (Hfree & Hobjs & ->). split; [exact Hnd|].
    intros i l Hi. rewrite Hobjs in Hi.
    destruct (decide (i = this)) as [->|Hit].
    + rewrite lookup_insert_eq in Hi. injection Hi as ->.
      apply bool_decide_eq_true in Hdis. exact (proj2 Hdis).
    + rewrite lookup_insert_ne in Hi by congruence. exact (Hlive i l Hi).
  - destruct Hrun as (q & Hfree & Hother & Hne & Hobjs & ->).
    split; [exact Hnd|]. intros i l Hi. rewrite Hobjs in Hi.
    destruct (decide (i = other)) as [->|Hio];
      [rewrite lookup_insert_eq in Hi; discriminate|].
    rewrite lookup_insert_ne in Hi by congruence.
    destruct (decide (i = this)) as [->|Hit].
    + rewrite lookup_insert_eq in Hi. injection Hi as ->.
      exact (Hlive other l Hother).
    + rewrite lookup_insert_ne in Hi by congruence. exact (Hlive i l Hi).
  - destruct Hrun as (p & q & Hthis & Hother &
                      [(_ & Hobjs & ->)|(Hne & Hobjs & ->)]).
    + split; [exact Hnd|]. intros i l Hi. rewrite Hobjs in Hi.
      exact (Hlive i l Hi).
    + split; [exact (destroy_handle_NoDup s this p Hsafe Hthis)|].
      intros i l Hi. rewrite Hobjs in Hi.
      destruct (decide (i = other)) as [->|Hio];
        [rewrite lookup_insert_eq in Hi; discriminate|].
      rewrite lookup_insert_ne in Hi by congruence.
      destruct (decide (i = this)) as [->|Hit].
      * rewrite lookup_insert_eq in Hi. injection Hi as ->.
        apply (destroy_handle_other s this other p l Hsafe Hthis Hother).
        congruence.
      * rewrite lookup_insert_ne in Hi by congruence.
        exact (destroy_handle_other s this i p l Hsafe Hthis Hi Hit).
  - destruct Hrun as (p & Hthis & Hobjs & ->). split; [exact Hnd|].
    intros i l Hi. rewrite Hobjs in Hi.
    destruct (decide (i = this)) as [->|Hit];
      [rewrite lookup_insert_eq in Hi; discriminate|].
    rewrite lookup_insert_ne in Hi by congruence. exact (Hlive i l Hi).
  - destruct Hrun as (q & Hthis & Hobjs & ->).
    split; [exact (destroy_handle_NoDup s this q Hsafe Hthis)|].
    intros i l Hi. rewrite Hobjs in Hi.
    destruct (decide (i = this)) as [->|Hit].
    + rewrite lookup_insert_eq in Hi. injection Hi as ->.
      apply bool_decide_eq_true in Hdis. destruct Hdis as [Hnone Hnew].
      intros Hin. apply elem_of_app in Hin as [Hin|Hin]; [exact (Hnew Hin)|].
      destruct q as [x|]; simpl in Hin.
      * apply list_elem_of_singleton in Hin. subst x.
        exact (Hnone this _ Hthis eq_refl).
      * apply not_elem_of_nil in Hin. exact Hin.
    + rewrite lookup_insert_ne in Hi by congruence.
      exact (destroy_handle_other s this i q l Hsafe Hthis Hi Hit).
  - destruct Hrun as (q & Hthis & Hobjs & ->).
    split; [exact (destroy_handle_NoDup s this q Hsafe Hthis)|].
    intros i l Hi. rewrite Hobjs in Hi.
    apply lookup_delete_Some in Hi as [Hit Hi].
    apply (destroy_handle_other s this i q l Hsafe Hthis Hi). congruence.
Qed.

Lemma reachable_safe (s : machine) :
  reachable disciplined s -> memory_safe s.
Proof.
  induction 1 as [|s o s' _ IH Hdis Hrun].
  - split; [|split].
    + intros i j l Hi. simpl in Hi. rewrite lookup_empty in Hi. discriminate.
    + simpl. apply NoDup_nil_2.
    + intros i l Hi. simpl in Hi. rewrite lookup_empty in Hi. discriminate.
  - exact (step_memory_safe o s s' IH Hdis Hrun).
Qed.

(** X3. In every state a program reaches by operations on [UniquePointer]
    objects, where each raw pointer handed to a constructor or to [reset]
    is null or designates a resource that no live wrapper holds and that has
    not been destroyed, no resource has been destroyed twice, no live
    wrapper holds a destroyed resource, and no two live wrappers hold the
    same resource. *)
Theorem disciplined_memory_safe (s : machine) :
  reachable disciplined s -> memory_safe s.
Proof. apply reachable_safe. Qed.

Lemma disciplined_memory_safe_witness :
  exists s,
    exec (run [Construct 0 (Some 7); MoveConstruct 1 0; Release 1;
               Construct 2 (Some 7); Destruct 2]) initial = Some s /\
    memory_safe s.
Proof.
  eexists. split; [vm_compute; reflexivity|].
  apply disciplined_memory_safe.
  pose proof (reach_initial disciplined) as H0.
  pose proof (reach_step _ _ (Construct 0 (Some 7)) _ H0 eq_refl eq_refl) as H1.
  pose proof (reach_step _ _ (MoveConstruct 1 0) _ H1 eq_refl eq_refl) as H2.
  pose proof (reach_step _ _ (Release 1) _ H2 eq_refl eq_refl) as H3.
  pose proof (reach_step _ _ (Construct 2 (Some 7)) _ H3 eq_refl eq_refl) as H4.
  exact (reach_step _ _ (Destruct 2) _ H4 eq_refl eq_refl).
Defined.

(** X4. Exactly-once destruction in disciplined programs: in every state such
    a program reaches, the destruction counter of every resource is at most
    one; a resource that a live wrapper holds has counter zero, and the
    destructor of that wrapper brings it to one. *)
Theorem disciplined_destroys_exactly_once
    (s : machine) (this : addr) (R : loc) :
  reachable disciplined s ->
  objs s !! this = Some (Some R) ->
  (forall l, destroyed l (log s) <= 1) /\
  destroyed R (log s) = 0 /\
  (exists s',
      exec (UniquePointer.dtor this) s = Some s' /\
      destroyed R (log s') = 1 /\
      (forall l, destroyed l (log s') <= 1)).
Proof.
  intros Hreach Hown.
  pose proof (reachable_safe s Hreach) as Hsafe.
  pose proof Hsafe as (_ & Hnd & Hlive).
  assert (H0 : destroyed R (log s) = 0).
  { unfold destroyed. apply count_occ_not_In. rewrite <- list_elem_of_In.
    exact (Hlive this R Hown). }
  split; [|split; [exact H0|]].
  - intros l. unfold destroyed.
    apply (proj1 (NoDup_count_occ Nat.eq_dec _)).
    apply NoDup_ListNoDup. exact Hnd.
  - unfold exec. rewrite (dtor_eq _ _ (Some R)) by assumption.
    eexists; split; [reflexivity|]. simpl.
    assert (Hd : deletions
                   (log s ++ [Cout "UniquePointer deleted, Destructor is called!!";
                              Destroy R])
                 = deletions (log s) ++ option_list (Some R)).
    { rewrite deletions_app. reflexivity. }
    split.
    + rewrite (destroyed_snoc R _ _ (Some R) Hd), H0.
      destruct (decide (Some R = Some R)); [reflexivity|congruence].
    + intros l. unfold destroyed.
      apply (proj1 (NoDup_count_occ Nat.eq_dec _)).
      apply NoDup_ListNoDup. rewrite Hd.
      exact (destroy_handle_NoDup s this (Some R) Hsafe Hown).
Qed.

Lemma disciplined_destroys_exactly_once_witness :
  exists s s',
    exec (run [Construct 0 (Some 7); MoveConstruct 1 0]) initial = Some s /\
    exec (UniquePointer.dtor 1) s = Some s' /\
    destroyed 7 (log s) = 0 /\
    destroyed 7 (log s') = 1.
Proof.
  eexists.
  pose proof (reach_initial disciplined) as H0.
  pose proof (reach_step _ _ (Construct 0 (Some 7)) _ H0 eq_refl eq_refl) as H1.
  pose proof (reach_step _ _ (MoveConstruct 1 0) _ H1 eq_refl eq_refl) as H2.
  destruct (disciplined_destroys_exactly_once _ 1 7 H2 eq_refl)
    as (_ & Hzero & s' & Hrun & Hone & _).
  exists s'. split; [reflexivity|]. repeat split; assumption.
Defined.

End safety.

(** ** Edge cases and compositions of the [UniquePointer] members *)

Section compositions.
Import UniquePointer.

(** X5. Transfer-assignment between two distinct live wrappers with any
    handles, empty or not: the receiver ends with the source's handle, the
    source ends empty, and what is destroyed is exactly the receiver's old
    resource, if it had one.  So an empty receiver destroys nothing, and an
    empty source empties the receiver after destroying its resource. *)
Theorem move_assign_any_handles
    (this other : addr) (p q : ptr) (s : machine) :
  this <> other ->
  objs s !! this = Some p ->
  objs s !! other = Some q ->
  exists s',
    move_assign this other s = Some (this, s') /\
    objs s' !! this = Some q /\
    objs s' !! other = Some None /\
    deletions (log s') = deletions (log s) ++ option_list p.
Proof.
  intros Hne Hthis Hother.
  rewrite (move_assign_eq _ _ _ p q) by assumption.
  eexists; split; [reflexivity|]. simpl.
  split; [by simplify_map_eq|]. split; [by simplify_map_eq|].
  rewrite !deletions_app, deletions_events. simpl.
  rewrite app_nil_r. reflexivity.
Qed.

Lemma move_assign_any_handles_witness :
  exists s',
    move_assign 0 1 (Machine {[0 := Some 7; 1 := None]} []) = Some (0, s') /\
    objs s' !! 0 = Some None /\
    objs s' !! 1 = Some None /\
    deletions (log s') = [7].
Proof.
  exact (move_assign_any_handles 0 1 (Some 7) None
           (Machine {[0 := Some 7; 1 := None]} [])
           ltac:(lia) eq_refl eq_refl).
Defined.

(** X6. [release] on a wrapper that has nothing left returns [nullptr]: after
    a transfer-construction from [a], [a.release()] returns [nullptr]
    whatever [a] held (the test [main] makes), and a second [release] in a
    row returns [nullptr] too.  Nothing is destroyed in either case. *)
Theorem release_of_emptied_is_null
    (a b : addr) (q : ptr) (s : machine) :
  objs s !! a = Some q ->
  objs s !! b = None ->
  (exists s',
      (move_ctor b a ;; release a) s = Some (None, s') /\
      objs s' !! b = Some q /\
      deletions (log s') = deletions (log s))
  /\ (exists s',
      (release a ;; release a) s = Some (None, s') /\
      objs s' !! a = Some None /\
      deletions (log s') = deletions (log s)).
Proof.
  intros Ha Hb. assert (a <> b) by congruence. split.
  - unfold bind. rewrite (move_ctor_eq _ _ _ q) by assumption.
    rewrite (release_eq _ _ None) by (simpl; by simplify_map_eq).
    eexists; split; [reflexivity|]. simpl.
    split; [by simplify_map_eq|].
    rewrite <- app_assoc, deletions_app. simpl. apply app_nil_r.
  - unfold bind. rewrite (release_eq _ _ q) by assumption.
    rewrite (release_eq _ _ None) by (simpl; by simplify_map_eq).
    eexists; split; [reflexivity|]. simpl.
    split; [by simplify_map_eq|].
    rewrite <- app_assoc, deletions_app. simpl. apply app_nil_r.
Qed.

Lemma release_of_emptied_is_null_witness :
  exists s',
    (move_ctor 1 0 ;; release 0) (Machine {[0 := Some 7]} []) = Some (None, s') /\
    objs s' !! 1 = Some (Some 7) /\
    deletions (log s') = [].
Proof.
  exact (proj1 (release_of_emptied_is_null 0 1 (Some 7)
                  (Machine {[0 := Some 7]} []) eq_refl eq_refl)).
Defined.

(** X7. Moving out and back: transfer-constructing [b] from [a] and then
    transfer-assigning [b] back to [a] gives [a] its handle again, leaves
    [b] alive and empty, changes no other object and destroys nothing. *)
Theorem move_out_and_back
    (a b : addr) (q : ptr) (s : machine) :
  objs s !! a = Some q ->
  objs s !! b = None ->
  exists s',
    exec (move_ctor b a ;; move_assign a b) s = Some s' /\
    objs s' = <[b := None]> (objs s) /\
    objs s' !! a = Some q /\
    deletions (log s') = deletions (log s).
Proof.
  intros Ha Hb. assert (a <> b) by congruence.
  unfold exec, bind. rewrite (move_ctor_eq _ _ _ q) by assumption.
  rewrite (move_assign_eq _ _ _ None q)
    by (simpl; first [assumption | by simplify_map_eq]).
  eexists; split; [reflexivity|]. simpl.
  assert (Hobjs : <[b := None]> (<[a := q]> (<[a := None]> (<[b := q]> (objs s))))
                  = <[b := None]> (objs s)).
  { rewrite insert_insert_eq.
    rewrite (insert_insert_ne _ a b) by assumption.
    rewrite insert_insert_eq. f_equal. apply insert_id. assumption. }
  split; [exact Hobjs|].
  split; [rewrite Hobjs; by simplify_map_eq|].
  rewrite <- app_assoc, deletions_app. simpl. apply app_nil_r.
Qed.

Lemma move_out_and_back_witness :
  exists s',
    exec (move_ctor 1 0 ;; move_assign 0 1) (Machine {[0 := Some 7]} [])
      = Some s' /\
    objs s' = <[1 := None]> {[0 := Some 7]} /\
    objs s' !! 0 = Some (Some 7) /\
    deletions (log s') = [].
Proof.
  exact (move_out_and_back 0 1 (Some 7) (Machine {[0 := Some 7]} [])
           eq_refl eq_refl).
Defined.

(** X8. Handing a resource over by hand, [UniquePointer b(a.release())], ends
    with the same wrapper objects as the transfer-construction of [b] from
    [a], and like it destroys nothing. *)
Theorem release_then_construct_is_move
    (a b : addr) (q : ptr) (s : machine) :
  objs s !! a = Some q ->
  objs s !! b = None ->
  exists s1 s2,
    exec (p <- release a ;; ctor b p) s = Some s1 /\
    exec (move_ctor b a) s = Some s2 /\
    objs s1 = objs s2 /\
    objs s1 !! b = Some q /\
    objs s1 !! a = Some None /\
    deletions (log s1) = deletions (log s) /\
    deletions (log s2) = deletions (log s).
Proof.
  intros Ha Hb. assert (a <> b) by congruence.
  unfold exec, bind. rewrite (release_eq _ _ q) by assumption.
  rewrite ctor_eq by (simpl; by simplify_map_eq).
  rewrite (move_ctor_eq _ _ _ q) by assumption.
  eexists; eexists; split; [reflexivity|]. split; [reflexivity|]. simpl.
  split; [apply insert_insert_ne; congruence|].
  split; [by simplify_map_eq|]. split; [by simplify_map_eq|].
  rewrite <- app_assoc, !deletions_app. simpl. rewrite !app_nil_r. tauto.
Qed.

Lemma release_then_construct_is_move_witness :
  exists s1 s2,
    exec (p <- release 0 ;; ctor 1 p) (Machine {[0 := Some 7]} []) = Some s1 /\
    exec (move_ctor 1 0) (Machine {[0 := Some 7]} []) = Some s2 /\
    objs s1 = objs s2 /\
    objs s1 !! 1 = Some (Some 7) /\
    objs s1 !! 0 = Some None /\
    deletions (log s1) = [] /\
    deletions (log s2) = [].
Proof.
  exact (release_then_construct_is_move 0 1 (Some 7)
           (Machine {[0 := Some 7]} []) eq_refl eq_refl).
Defined.

(** X9. [reset] does not guard against its own handle: [x.reset(x.operator->())]
    on a wrapper that owns [R] destroys [R] and stores [R] again, so the
    wrapper is left holding a destroyed resource, and its destructor
    destroys [R] a second time. *)
Theorem reset_to_own_handle_destroys_twice
    (this : addr) (R : loc) (s : machine) :
  objs s !! this = Some (Some R) ->
  exists s',
    exec (p <- operator_arrow this ;; reset this p) s = Some s' /\
    objs s' !! this = Some (Some R) /\
    deletions (log s') = deletions (log s) ++ [R] /\
    (exists s'',
        exec (dtor this) s' = Some s'' /\
        deletions (log s'') = deletions (log s) ++ [R; R] /\
        destroyed R (log s'') = 2 + destroyed R (log s)).
Proof.
  intros Hown. unfold exec, bind.
  rewrite (operator_arrow_eq _ _ (Some R)) by assumption.
  rewrite (reset_eq _ _ (Some R)) by assumption.
  eexists; split; [reflexivity|]. simpl.
  split; [by simplify_map_eq|].
  split; [rewrite <- app_assoc, deletions_app; reflexivity|].
  rewrite (dtor_eq _ _ (Some R)) by (simpl; by simplify_map_eq).
  eexists; split; [reflexivity|]. simpl.
  rewrite <- !app_assoc. simpl. split.
  - rewrite deletions_app. reflexivity.
  - rewrite destroyed_app. unfold destroyed at 2. simpl.
    destruct (Nat.eq_dec R R); [lia|congruence].
Qed.

Lemma reset_to_own_handle_destroys_twice_witness :
  exists s',
    exec (p <- operator_arrow 0 ;; reset 0 p) (Machine {[0 := Some 7]} [])
      = Some s' /\
    objs s' !! 0 = Some (Some 7) /\
    deletions (log s') = [7] /\
    (exists s'',
        exec (dtor 0) s' = Some s'' /\
        deletions (log s'') = [7; 7] /\
        destroyed 7 (log s'') = 2).
Proof.
  exact (reset_to_own_handle_destroys_twice 0 7 (Machine {[0 := Some 7]} [])
           eq_refl).
Defined.

(** X10. The constructor takes any raw pointer: two wrappers constructed over
    the same resource [R] are both alive with handle [R], and destroying
    both destroys [R] twice. *)
Theorem shared_raw_pointer_destroys_twice
    (a b : addr) (R : loc) (s : machine) :
  a <> b ->
  objs s !! a = None ->
  objs s !! b = None ->
  exists s1,
    exec (ctor a (Some R) ;; ctor b (Some R)) s = Some s1 /\
    objs s1 !! a = Some (Some R) /\
    objs s1 !! b = Some (Some R) /\
    deletions (log s1) = deletions (log s) /\
    (exists s2,
        exec (dtor b ;; dtor a) s1 = Some s2 /\
        objs s2 = objs s /\
        deletions (log s2) = deletions (log s) ++ [R; R] /\
        destroyed R (log s2) = 2 + destroyed R (log s)).
Proof.
  intros Hne Ha Hb. unfold exec, bind.
  rewrite ctor_eq by assumption.
  rewrite ctor_eq by (simpl; by simplify_map_eq).
  eexists; split; [reflexivity|]. simpl.
  split; [by simplify_map_eq|]. split; [by simplify_map_eq|].
  split; [rewrite <- app_assoc, deletions_app; simpl; apply app_nil_r|].
  rewrite (dtor_eq _ _ (Some R)) by (simpl; by simplify_map_eq).
  rewrite (dtor_eq _ _ (Some R)) by (simpl; by simplify_map_eq).
  eexists; split; [reflexivity|]. simpl.
  split; [|rewrite <- !app_assoc; simpl; split].
  - rewrite delete_insert_eq, delete_insert_ne by congruence.
    rewrite delete_insert_eq, (delete_id _ b) by assumption.
    apply delete_id. assumption.
  - rewrite deletions_app. reflexivity.
  - rewrite destroyed_app. unfold destroyed at 2. simpl.
    destruct (Nat.eq_dec R R); [lia|congruence].
Qed.

Lemma shared_raw_pointer_destroys_twice_witness :
  exists s1,
    exec (ctor 0 (Some 7) ;; ctor 1 (Some 7)) initial = Some s1 /\
    objs s1 !! 0 = Some (Some 7) /\
    objs s1 !! 1 = Some (Some 7) /\
    deletions (log s1) = [] /\
    (exists s2,
        exec (dtor 1 ;; dtor 0) s1 = Some s2 /\
        objs s2 = ∅ /\
        deletions (log s2) = [7; 7] /\
        destroyed 7 (log s2) = 2).
Proof.
  exact (shared_raw_pointer_destroys_twice 0 1 7 initial
           ltac:(lia) eq_refl eq_refl).
Defined.

End compositions.

(** ** [smartPointer]: lifetime, access and assignment *)

Section simple_owner_more.
Import smartPointer.

Lemma sp_ctor_eq (this : addr) (p : ptr) (s : machine) :
  objs s !! this = None ->
  ctor this p s =
  Some (tt, Machine (<[this := p]> (objs s))
                    (log s ++ [Store this p;
                       Cout "smartPointer instance created, Contructor is called!!"])).
Proof. intros Hfree. unfold ctor. run_member. reflexivity. Qed.

Lemma sp_operator_star_eq (this : addr) (p : ptr) (s : machine) :
  objs s !! this = Some p ->
  operator_star this s =
  Some (builtin_deref p,
        Machine (objs s) (log s ++ [Cout "overloading dereference operator"])).
Proof. intros Hlive. unfold operator_star. run_member. reflexivity. Qed.

Lemma sp_operator_arrow_eq (this : addr) (p : ptr) (s : machine) :
  objs s !! this = Some p ->
  operator_arrow this s =
  Some (p, Machine (objs s) (log s ++ [Cout "overloading arrow oprator"])).
Proof. intros Hlive. unfold operator_arrow. run_member. reflexivity. Qed.

Lemma sp_copy_assign_eq (this other : addr) (p q : ptr) (s : machine) :
  objs s !! this = Some p -> objs s !! other = Some q ->
  copy_assign this other s =
  Some (this, Machine (<[this := q]> (objs s)) (log s ++ [Store this q])).
Proof. intros Hthis Hother. unfold copy_assign. run_member. reflexivity. Qed.

(** X11. A [smartPointer] that is never copied cleans up once: constructing it
    over any raw pointer [p] and destroying it leaves the wrapper objects as
    they were and destroys the resource of [p] once when [p] is non-null,
    and nothing when it is null. *)
Theorem smartPointer_construct_destruct
    (this : addr) (p : ptr) (s : machine) :
  objs s !! this = None ->
  exists s',
    exec (ctor this p ;; dtor this) s = Some s' /\
    objs s' = objs s /\
    deletions (log s') = deletions (log s) ++ option_list p /\
    (forall l, destroyed l (log s') =
               destroyed l (log s) + (if decide (p = Some l) then 1 else 0)).
Proof.
  intros Hfree. unfold exec, bind. rewrite sp_ctor_eq by assumption.
  rewrite (sp_dtor_eq _ p) by (simpl; apply lookup_insert_eq).
  eexists; split; [reflexivity|]. simpl.
  split; [apply delete_insert_id; assumption|].
  assert (Hd : deletions
                 ((log s ++ [Store this p;
                    Cout "smartPointer instance created, Contructor is called!!"]) ++
                  Cout "smartPointer deleted, Destructor is called!!"
                  :: delete_events p)
               = deletions (log s) ++ option_list p).
  { rewrite <- app_assoc, deletions_app. simpl.
    rewrite deletions_events. reflexivity. }
  split; [exact Hd|]. intros l. exact (destroyed_snoc l _ _ p Hd).
Qed.

Lemma smartPointer_construct_destruct_witness :
  exists s',
    exec (ctor 0 (Some 7) ;; dtor 0) initial = Some s' /\
    objs s' = ∅ /\
    deletions (log s') = [7] /\
    (forall l, destroyed l (log s') =
               0 + (if decide (Some 7 = Some l) then 1 else 0)).
Proof.
  exact (smartPointer_construct_destruct 0 (Some 7) initial eq_refl).
Defined.

(** X12. Access through a [smartPointer] is unchecked and only reads: on a live
    wrapper that manages [R], [operator*] yields the reference to [R] and
    [operator->] the raw pointer to [R]; on a live wrapper with a null
    handle [operator*] has an undefined result and [operator->] returns
    [nullptr].  No wrapper object changes and nothing is destroyed. *)
Theorem smartPointer_access
    (this : addr) (R : loc) (s : machine) (that : addr) (s0 : machine) :
  objs s !! this = Some (Some R) ->
  objs s0 !! that = Some None ->
  (exists s1 s2,
      operator_star this s = Some (Defined_ (Ref R), s1) /\
      operator_arrow this s = Some (Some R, s2) /\
      objs s1 = objs s /\ objs s2 = objs s /\
      deletions (log s1) = deletions (log s) /\
      deletions (log s2) = deletions (log s))
  /\ (exists s1 s2,
      operator_star that s0 = Some (Undefined, s1) /\
      operator_arrow that s0 = Some (None, s2) /\
      objs s1 = objs s0 /\ objs s2 = objs s0 /\
      deletions (log s1) = deletions (log s0) /\
      deletions (log s2) = deletions (log s0)).
Proof.
  intros Hown Hempty.
  rewrite (sp_operator_star_eq _ (Some R)), (sp_operator_arrow_eq _ (Some R))
    by assumption.
  rewrite (sp_operator_star_eq _ None), (sp_operator_arrow_eq _ None)
    by assumption.
  split; eexists; eexists; (split; [reflexivity|]); (split; [reflexivity|]);
    simpl; rewrite !deletions_app; simpl; rewrite !app_nil_r; tauto.
Qed.

Lemma smartPointer_access_witness :
  exists s1 s2,
    operator_star 0 (Machine {[0 := Some 7]} []) = Some (Defined_ (Ref 7), s1) /\
    operator_arrow 0 (Machine {[0 := Some 7]} []) = Some (Some 7, s2) /\
    objs s1 = {[0 := Some 7]} /\ objs s2 = {[0 := Some 7]} /\
    deletions (log s1) = [] /\
    deletions (log s2) = [].
Proof.
  exact (proj1 (smartPointer_access 0 7 (Machine {[0 := Some 7]} [])
                  1 (Machine {[1 := None]} []) eq_refl eq_refl)).
Defined.

(** X13. Assigning one [smartPointer] to another uses the implicit copy
    assignment: with [b] managing [X] and [a] managing a different [Y],
    [b = a] destroys nothing and leaves both wrappers with handle [Y], so
    [b] no longer refers to [X]; destroying both wrappers afterwards
    destroys [Y] twice and [X] not at all. *)
Theorem smartPointer_assign_leaks_and_destroys_twice
    (a b : addr) (X Y : loc) (s : machine) :
  a <> b -> X <> Y ->
  objs s !! a = Some (Some Y) ->
  objs s !! b = Some (Some X) ->
  exists s1,
    copy_assign b a s = Some (b, s1) /\
    objs s1 !! a = Some (Some Y) /\
    objs s1 !! b = Some (Some Y) /\
    deletions (log s1) = deletions (log s) /\
    (exists s2,
        exec (dtor b ;; dtor a) s1 = Some s2 /\
        deletions (log s2) = deletions (log s) ++ [Y; Y] /\
        destroyed Y (log s2) = 2 + destroyed Y (log s) /\
        destroyed X (log s2) = destroyed X (log s)).
Proof.
  intros Hne Hxy Ha Hb.
  rewrite (sp_copy_assign_eq _ _ (Some X) (Some Y)) by assumption.
  eexists; split; [reflexivity|]. simpl.
  split; [by simplify_map_eq|]. split; [by simplify_map_eq|].
  split; [rewrite deletions_app; simpl; apply app_nil_r|].
  unfold exec, bind.
  rewrite (sp_dtor_eq _ (Some Y)) by (simpl; by simplify_map_eq).
  rewrite (sp_dtor_eq _ (Some Y)) by (simpl; by simplify_map_eq).
  eexists; split; [reflexivity|]. simpl.
  rewrite <- !app_assoc. simpl. split; [|split].
  - rewrite deletions_app. reflexivity.
  - rewrite destroyed_app. unfold destroyed at 2. simpl.
    destruct (Nat.eq_dec Y Y); [lia|congruence].
  - rewrite destroyed_app. unfold destroyed at 2. simpl.
    destruct (Nat.eq_dec Y X); [congruence|lia].
Qed.

Lemma smartPointer_assign_leaks_and_destroys_twice_witness :
  exists s1,
    copy_assign 1 0 (Machine {[0 := Some 8; 1 := Some 7]} []) = Some (1, s1) /\
    objs s1 !! 0 = Some (Some 8) /\
    objs s1 !! 1 = Some (Some 8) /\
    deletions (log s1) = [] /\
    (exists s2,
        exec (dtor 1 ;; dtor 0) s1 = Some s2 /\
        deletions (log s2) = [8; 8] /\
        destroyed 8 (log s2) = 2 /\
        destroyed 7 (log s2) = 0).
Proof.
  exact (smartPointer_assign_leaks_and_destroys_twice 0 1 7 8
           (Machine {[0 := Some 8; 1 := Some 7]} [])
           ltac:(lia) ltac:(lia) eq_refl eq_refl).
Defined.

End simple_owner_more.

(** ** The programs, from any state *)

Section programs.

Lemma console_app (T : resource_class) (t1 t2 : list event) :
  console T (t1 ++ t2) = console T t1 ++ console T t2.
Proof. unfold console. apply flat_map_app. Qed.

(** X14. [main] of uniquePointer.cpp, run where its two locals can be placed
    and with its [MyClass] object allocated at [R], returns 0, leaves the
    wrapper objects as they were, and destroys [R] once and nothing else:
    the destruction comes from the second wrapper at the end of the scope,
    the first one, emptied by the transfer, reports "Ownership transferred"
    and destroys nothing. *)
Theorem unique_main_destroys_once (R : loc) (s : machine) :
  objs s !! unique_program.unique_ptr = None ->
  objs s !! unique_program.unique_ptr2 = None ->
  exists s',
    unique_program.main R s = Some (0, s') /\
    objs s' = objs s /\
    deletions (log s') = deletions (log s) ++ [R] /\
    console unique_program.MyClass (log s') =
      console unique_program.MyClass (log s) ++
      ["MyClass constructor called!";
       "UniquePointer instance created, Contructor is called!!";
       "overloading arrow oprator";
       "Hello from MyClass!";
       "Move constructor called";
       "utility function to release ownership";
       "Ownership transferred";
       "overloading arrow oprator";
       "Hello from MyClass!";
       "UniquePointer deleted, Destructor is called!!";
       "MyClass destructor called!";
       "UniquePointer deleted, Destructor is called!!"].
Proof.
  unfold unique_program.unique_ptr, unique_program.unique_ptr2.
  intros H0 H1.
  unfold unique_program.main, unique_program.unique_ptr,
    unique_program.unique_ptr2, new_, member_access, call_method,
    UniquePointer.ctor, UniquePointer.operator_arrow, UniquePointer.move_ctor,
    UniquePointer.release, UniquePointer.dtor, builtin_arrow, builtin_deref.
  run_member.
  eexists; split; [reflexivity|]. simpl.
  split; [|split].
  - apply map_eq. intros k.
    destruct (decide (k = 0)) as [->|Hk0]; [by simplify_map_eq|].
    destruct (decide (k = 1)) as [->|Hk1]; by simplify_map_eq.
  - rewrite deletions_app. reflexivity.
  - rewrite console_app. reflexivity.
Qed.

Lemma unique_main_destroys_once_witness :
  exists s',
    unique_program.main 7 initial = Some (0, s') /\
    objs s' = ∅ /\
    deletions (log s') = [7].
Proof.
  destruct (unique_main_destroys_once 7 initial eq_refl eq_refl)
    as (s' & Hrun & Hobjs & Hdel & _).
  exists s'. repeat split; assumption.
Defined.

(** X15. [main] of the starter program, run where its local can be placed and
    with its [MyClass] object allocated at [R], returns 0, leaves the
    wrapper objects as they were, destroys [R] once, and prints the eight
    lines the README lists as its output. *)
Theorem starter_main_destroys_once (R : loc) (s : machine) :
  objs s !! starter_program.sp1 = None ->
  exists s',
    starter_program.main R s = Some (0, s') /\
    objs s' = objs s /\
    deletions (log s') = deletions (log s) ++ [R] /\
    console starter_program.MyClass (log s') =
      console starter_program.MyClass (log s) ++
      ["MyClass Constructor is called";
       "smartPointer instance created, Contructor is called!!";
       "overloading arrow oprator";
       "MyClass instance function!";
       "overloading dereference operator";
       "MyClass instance function!";
       "smartPointer deleted, Destructor is called!!";
       "MyClass is going out of scope!!!! Destructor is called"].
Proof.
  unfold starter_program.sp1. intros H0.
  unfold starter_program.main, starter_program.sp1, new_, call_method,
    smartPointer.ctor, smartPointer.operator_arrow,
    smartPointer.operator_star, smartPointer.dtor, builtin_arrow,
    builtin_deref.
  run_member.
  eexists; split; [reflexivity|]. simpl.
  split; [|split].
  - apply delete_insert_id. assumption.
  - rewrite deletions_app. reflexivity.
  - rewrite console_app. reflexivity.
Qed.

Lemma starter_main_destroys_once_witness :
  exists s',
    starter_program.main 7 initial = Some (0, s') /\
    objs s' = ∅ /\
    deletions (log s') = [7].
Proof.
  destruct (starter_main_destroys_once 7 initial eq_refl)
    as (s' & Hrun & Hobjs & Hdel & _).
  exists s'. repeat split; assumption.
Defined.

End programs.
